(** * A shallow embedding of [src/server/socket.rs] (the Wayland server socket)

    The Rust code talks to the operating system through a handful of system
    calls: [openat] with [O_CREAT|O_WRONLY], [flock], [unlink], the
    [socket/bind/listen] sequence behind [UnixListener::bind], and [close]
    (when an [OwnedFd] or a listener is dropped).  We model the part of the
    kernel state these calls touch: a directory tree flattened to a map from
    path strings to nodes (regular files and socket files, each with an
    inode number), the open file descriptions (fd -> inode), the table of
    exclusive [flock] locks (inode -> holding fd) and a trace of the system
    calls issued.  Whatever the environment decides outside of this state
    (permissions, a missing parent directory, kernel resource exhaustion) is
    an oracle stored in the world and never changed by the program.

    Every system call is a function [World -> option (World * A)]: [None]
    means the calling thread is suspended (a blocking call that has to
    wait), which is how blocking is distinguished from immediate failure. *)

From Stdlib Require Import Ascii String NArith.
From stdpp Require Import base gmap strings list relations.

Open Scope string_scope.

(** ** Errors *)

(** The [io::Error] payloads we need, by errno. *)
Inductive Errno :=
| ENOENT | EACCES | ENXIO | EWOULDBLOCK | ENOLCK | EADDRINUSE | EBADF.

(** [enum SocketError] *)
Inductive SocketError :=
| NoAvailableSocket
| RuntimeDirInvalid
| LockOpen (e : Errno)
| LockAcquire (e : Errno)
| Bind (e : Errno)
| Accept (e : Errno).

(** Rust's [Result]. *)
Inductive Result (A E : Type) := Ok (a : A) | Err (e : E).
Arguments Ok {A E} a.
Arguments Err {A E} e.

(** ** The kernel state *)

(** A directory entry: a regular file (with its permission bits) or a
    socket file. *)
Inductive Node :=
| File (ino : nat) (mode : N)
| Sock (ino : nat).

(** The outcome of [env::var]: [VarError::NotPresent], [VarError::NotUnicode]
    or the value. *)
Inductive EnvVar := NotPresent | NotUnicode | Present (s : string).

(** One entry of the system-call trace, with whether the call succeeded. *)
Inductive Event :=
| EvOpenat (path : string) (ok : bool)
| EvFlock (fd : nat) (ok : bool)
| EvUnlink (path : string) (ok : bool)
| EvBind (path : string) (ok : bool)
| EvClose (fd : nat).

Record World := mkWorld {
  fs : gmap string Node;
  next_ino : nat;
  fds : gmap nat nat;        (** open file description -> inode *)
  next_fd : nat;
  locks : gmap nat nat;      (** inode -> fd holding the exclusive flock *)
  trace : list Event;
  umask : N;
  xdg_var : EnvVar;          (** the value of [XDG_RUNTIME_DIR] *)
  open_ok : string -> bool;  (** the environment lets [openat] reach the path *)
  unlink_ok : string -> bool;
  bind_ok : string -> bool;
  lock_records_exhausted : bool  (** the kernel answers [flock] with ENOLCK *)
}.

Definition set_fs (m : gmap string Node) (w : World) : World :=
  mkWorld m (next_ino w) (fds w) (next_fd w) (locks w) (trace w) (umask w)
    (xdg_var w) (open_ok w) (unlink_ok w) (bind_ok w) (lock_records_exhausted w).

Definition set_fds (m : gmap nat nat) (w : World) : World :=
  mkWorld (fs w) (next_ino w) m (next_fd w) (locks w) (trace w) (umask w)
    (xdg_var w) (open_ok w) (unlink_ok w) (bind_ok w) (lock_records_exhausted w).

Definition set_locks (m : gmap nat nat) (w : World) : World :=
  mkWorld (fs w) (next_ino w) (fds w) (next_fd w) m (trace w) (umask w)
    (xdg_var w) (open_ok w) (unlink_ok w) (bind_ok w) (lock_records_exhausted w).

(** A fresh inode for [n] at [path]. *)
Definition new_node (path : string) (n : nat -> Node) (w : World) : World :=
  mkWorld (<[path := n (next_ino w)]> (fs w)) (S (next_ino w)) (fds w)
    (next_fd w) (locks w) (trace w) (umask w) (xdg_var w) (open_ok w)
    (unlink_ok w) (bind_ok w) (lock_records_exhausted w).

(** A fresh file descriptor on inode [i]. *)
Definition new_fd (i : nat) (w : World) : World :=
  mkWorld (fs w) (next_ino w) (<[next_fd w := i]> (fds w)) (S (next_fd w))
    (locks w) (trace w) (umask w) (xdg_var w) (open_ok w) (unlink_ok w)
    (bind_ok w) (lock_records_exhausted w).

Definition log (ev : Event) (w : World) : World :=
  mkWorld (fs w) (next_ino w) (fds w) (next_fd w) (locks w) (trace w ++ [ev])
    (umask w) (xdg_var w) (open_ok w) (unlink_ok w) (bind_ok w)
    (lock_records_exhausted w).

(** ** The monad *)

Definition M (A : Type) : Type := World -> option (World * A).

Definition ret {A} (a : A) : M A := fun w => Some (w, a).

Definition bindM {A B} (m : M A) (k : A -> M B) : M B :=
  fun w => match m w with
           | None => None
           | Some (w', a) => k a w'
           end.

Notation "'let*' x ':=' m 'in' k" := (bindM m (fun x => k))
  (at level 200, x name, m at level 100, k at level 200).

(** ** System calls *)

(** [rustix::fs::OFlags] and [rustix::fs::Mode] bits (octal in C). *)
Definition OFlags_WRONLY : N := 1.    (* 0o1 *)
Definition OFlags_CREATE : N := 64.   (* 0o100 *)
Definition Mode_WUSR : N := 128.      (* 0o200 *)
Definition Mode_RUSR : N := 256.      (* 0o400 *)

(** [openat(CWD, path, flags, mode)]: opens an existing regular file, or
    creates it with [mode & ~umask] when [O_CREAT] is given.  Opening a
    socket file fails with ENXIO. *)
Definition openat (path : string) (flags mode : N) : M (Result nat Errno) :=
  fun w =>
    if negb (open_ok w path) then Some (log (EvOpenat path false) w, Err EACCES)
    else match fs w !! path with
    | Some (File i _) =>
        Some (log (EvOpenat path true) (new_fd i w), Ok (next_fd w))
    | Some (Sock _) => Some (log (EvOpenat path false) w, Err ENXIO)
    | None =>
        if N.testbit flags 6 then
          let w1 := new_node path (fun i => File i (N.ldiff mode (umask w))) w in
          Some (log (EvOpenat path true) (new_fd (next_ino w) w1), Ok (next_fd w))
        else Some (log (EvOpenat path false) w, Err ENOENT)
    end.

(** The exclusive variants of [rustix::fs::FlockOperation]. *)
Inductive FlockOperation := LockExclusive | NonBlockingLockExclusive.

(** [flock(fd, op)]: a lock held through another open file description
    makes the call wait ([None]) or, for the non-blocking variant, fail with
    EWOULDBLOCK at once.  Taking a free lock can fail with ENOLCK. *)
Definition flock (fd : nat) (op : FlockOperation) : M (Result unit Errno) :=
  fun w =>
    match fds w !! fd with
    | None => Some (log (EvFlock fd false) w, Err EBADF)
    | Some i =>
        match locks w !! i with
        | Some h =>
            if decide (h = fd) then Some (log (EvFlock fd true) w, Ok tt)
            else match op with
                 | LockExclusive => None
                 | NonBlockingLockExclusive =>
                     Some (log (EvFlock fd false) w, Err EWOULDBLOCK)
                 end
        | None =>
            if lock_records_exhausted w then Some (log (EvFlock fd false) w, Err ENOLCK)
            else Some (log (EvFlock fd true) (set_locks (<[i := fd]> (locks w)) w), Ok tt)
        end
    end.

(** [close(fd)] (the [Drop] of an [OwnedFd] or of a listener): releases the
    flock held through this description; errors are ignored. *)
Definition close (fd : nat) : M unit :=
  fun w =>
    match fds w !! fd with
    | None => Some (log (EvClose fd) w, tt)
    | Some i =>
        let l := if decide (locks w !! i = Some fd) then delete i (locks w)
                 else locks w in
        Some (log (EvClose fd) (set_fds (delete fd (fds w)) (set_locks l w)), tt)
    end.

(** [unlink(path)]. *)
Definition unlink (path : string) : M (Result unit Errno) :=
  fun w =>
    if negb (unlink_ok w path) then Some (log (EvUnlink path false) w, Err EACCES)
    else match fs w !! path with
    | None => Some (log (EvUnlink path false) w, Err ENOENT)
    | Some _ => Some (log (EvUnlink path true) (set_fs (delete path (fs w)) w), Ok tt)
    end.

(** [UnixListener::bind(path)]: a fresh socket file at [path] and a
    listening descriptor on it; an existing entry gives EADDRINUSE. *)
Definition bind (path : string) : M (Result nat Errno) :=
  fun w =>
    if negb (bind_ok w path) then Some (log (EvBind path false) w, Err EACCES)
    else match fs w !! path with
    | Some _ => Some (log (EvBind path false) w, Err EADDRINUSE)
    | None =>
        let w1 := new_node path Sock w in
        Some (log (EvBind path true) (new_fd (next_ino w) w1), Ok (next_fd w))
    end.

(** ** Paths ([std::path] on Unix) *)

Definition is_sep (c : ascii) : bool := Ascii.eqb c "/"%char.

(** [Path::has_root], which is [Path::is_absolute] on Unix. *)
Definition is_absolute (p : string) : bool :=
  match p with
  | String c _ => is_sep c
  | EmptyString => false
  end.

Fixpoint last_char (s : string) : option ascii :=
  match s with
  | EmptyString => None
  | String c EmptyString => Some c
  | String _ s' => last_char s'
  end.

(** [Path::join] = [to_path_buf] then [PathBuf::push]: an absolute
    argument replaces the base; otherwise a separator is inserted when the
    base is non-empty and does not already end in one. *)
Definition join (dir p : string) : string :=
  if is_absolute p then p
  else
    let need_sep := match last_char dir with
                    | Some c => negb (is_sep c)
                    | None => false
                    end in
    if need_sep then dir +:+ "/" +:+ p else dir +:+ p.

(** [build_paths]: [(dir.join(name), dir.join(format!("{name}.lock")))]. *)
Definition build_paths (dir name : string) : string * string :=
  (join dir name, join dir (name +:+ ".lock")).

(** [format!("{i}")] for a non-negative integer. *)
Fixpoint digits_aux (fuel n : nat) (acc : string) : string :=
  match fuel with
  | 0 => acc
  | S f =>
      let acc' := String (ascii_of_nat (48 + n mod 10)) acc in
      if Nat.ltb n 10 then acc' else digits_aux f (n / 10) acc'
  end.

Definition string_of_nat (n : nat) : string := digits_aux (S n) n "".

(** Rust's half-open range [a..b]. *)
Definition range (a b : nat) : list nat := seq a (b - a).

(** ** [WaylandSocket] *)

Record WaylandSocket := {
  listener : nat;
  name : string;
  bind_path : string;
  lock_path : string;
  _lock : nat
}.

(** [lock_file] *)
Definition lock_file (path : string) : M (Result nat SocketError) :=
  let* r := openat path (N.lor OFlags_CREATE OFlags_WRONLY) (N.lor Mode_RUSR Mode_WUSR) in
  match r with
  | Err e => ret (Err (LockOpen e))
  | Ok fd =>
      let* r2 := flock fd NonBlockingLockExclusive in
      match r2 with
      | Ok _ => ret (Ok fd)
      | Err e =>
          (* [fd] is dropped on the early return *)
          let* _ := close fd in
          ret (Err (LockAcquire e))
      end
  end.

(** [WaylandSocket::with_name_in_dir] *)
Definition with_name_in_dir (dir nm : string) : M (Result WaylandSocket SocketError) :=
  let '(bp, lp) := build_paths dir nm in
  let* r := lock_file lp in
  match r with
  | Err e => ret (Err e)
  | Ok lk =>
      let* _ := unlink bp in
      let* r2 := bind bp in
      match r2 with
      | Err e =>
          (* [_lock] is dropped on the early return *)
          let* _ := close lk in
          ret (Err (Bind e))
      | Ok l =>
          ret (Ok {| listener := l; name := nm; bind_path := bp;
                     lock_path := lp; _lock := lk |})
      end
  end.

(** [WaylandSocket::with_candidates_in_dir], on a finite candidate list. *)
Fixpoint with_candidates_in_dir (dir : string) (candidates : list string)
    : M (Result WaylandSocket SocketError) :=
  match candidates with
  | [] => ret (Err NoAvailableSocket)
  | nm :: rest =>
      let* r := with_name_in_dir dir nm in
      match r with
      | Ok socket => ret (Ok socket)
      | Err (LockAcquire _) => with_candidates_in_dir dir rest
      | Err err => ret (Err err)
      end
  end.

(** [xdg_runtime_dir]: reads the variable, no system call. *)
Definition xdg_runtime_dir : M (Result string SocketError) :=
  fun w =>
    match xdg_var w with
    | Present s =>
        if is_absolute s then Some (w, Ok s) else Some (w, Err RuntimeDirInvalid)
    | _ => Some (w, Err RuntimeDirInvalid)
    end.

(** [WaylandSocket::with_candidates] *)
Definition with_candidates (candidates : list string) : M (Result WaylandSocket SocketError) :=
  let* d := xdg_runtime_dir in
  match d with
  | Err e => ret (Err e)
  | Ok dir => with_candidates_in_dir dir candidates
  end.

(** [WaylandSocket::with_name] *)
Definition with_name (nm : string) : M (Result WaylandSocket SocketError) :=
  let* d := xdg_runtime_dir in
  match d with
  | Err e => ret (Err e)
  | Ok dir => with_name_in_dir dir nm
  end.

(** The candidates of [auto]: [(1..32).map(|i| format!("wayland-{i}"))]. *)
Definition auto_candidates : list string :=
  map (fun i => "wayland-" +:+ string_of_nat i) (range 1 32).

(** [WaylandSocket::auto] *)
Definition auto : M (Result WaylandSocket SocketError) :=
  with_candidates auto_candidates.

(** [impl Drop for WaylandSocket], followed by the drop of the fields in
    declaration order: [listener], then [_lock]. *)
Definition drop (s : WaylandSocket) : M unit :=
  let* _ := unlink (bind_path s) in
  let* _ := unlink (lock_path s) in
  let* _ := close (listener s) in
  close (_lock s).

(** ** Concrete worlds for the examples and witnesses *)

(** An empty runtime directory, everything permitted, umask 0o022. *)
Definition world0 : World :=
  mkWorld ∅ 0 ∅ 3 ∅ [] 18 (Present "/run/user/1000")
    (fun _ => true) (fun _ => true) (fun _ => true) false.

(** ** Interleaved execution of several processes

    Each process runs [with_name_in_dir] one system call at a time and,
    once it owns a [WaylandSocket], may drop it, again one system call at a
    time.  The error paths perform the [close] of the early-return drop in
    the same step as the failing call. *)
Inductive Proc :=
| PStart (dir nm : string)
| POpened (dir nm : string) (fd : nat)
| PLocked (dir nm : string) (fd : nat)
| PUnlinked (dir nm : string) (fd : nat)
| PAlive (s : WaylandSocket)
| PDropping1 (s : WaylandSocket)   (* [bind_path] unlinked *)
| PDropping2 (s : WaylandSocket)   (* [lock_path] unlinked *)
| PFailed (e : SocketError)
| PDropped.

Definition proc_step (p : Proc) : M Proc :=
  match p with
  | PStart dir nm =>
      let* r := openat (build_paths dir nm).2 (N.lor OFlags_CREATE OFlags_WRONLY)
                  (N.lor Mode_RUSR Mode_WUSR) in
      match r with
      | Err e => ret (PFailed (LockOpen e))
      | Ok fd => ret (POpened dir nm fd)
      end
  | POpened dir nm fd =>
      let* r := flock fd NonBlockingLockExclusive in
      match r with
      | Ok _ => ret (PLocked dir nm fd)
      | Err e => let* _ := close fd in ret (PFailed (LockAcquire e))
      end
  | PLocked dir nm fd =>
      let* _ := unlink (build_paths dir nm).1 in
      ret (PUnlinked dir nm fd)
  | PUnlinked dir nm fd =>
      let* r := bind (build_paths dir nm).1 in
      match r with
      | Err e => let* _ := close fd in ret (PFailed (Bind e))
      | Ok l =>
          ret (PAlive {| listener := l; name := nm; bind_path := (build_paths dir nm).1;
                         lock_path := (build_paths dir nm).2; _lock := fd |})
      end
  | PAlive s => let* _ := unlink (bind_path s) in ret (PDropping1 s)
  | PDropping1 s => let* _ := unlink (lock_path s) in ret (PDropping2 s)
  | PDropping2 s =>
      let* _ := close (listener s) in
      let* _ := close (_lock s) in
      ret PDropped
  | PFailed _ | PDropped => fun _ => None
  end.

Definition Config : Type := World * list Proc.

Inductive step : relation Config :=
| step_proc (w w' : World) (ps : list Proc) (i : nat) (p p' : Proc) :
    ps !! i = Some p ->
    proc_step p w = Some (w', p') ->
    step (w, ps) (w', <[i := p']> ps).

(** Runs the processes in the order given by a schedule of indices. *)
Fixpoint run_schedule (sched : list nat) (c : Config) : option Config :=
  match sched with
  | [] => Some c
  | i :: rest =>
      match c.2 !! i with
      | None => None
      | Some p =>
          match proc_step p c.1 with
          | None => None
          | Some (w', p') => run_schedule rest (w', <[i := p']> c.2)
          end
      end
  end.

(** The socket a process owns while it exists (including during its drop). *)
Definition live (p : Proc) : option WaylandSocket :=
  match p with
  | PAlive s | PDropping1 s | PDropping2 s => Some s
  | _ => None
  end.

(** No two distinct processes own a live socket for the same lock path. *)
Definition mutual_exclusion (c : Config) : Prop :=
  forall i j s1 s2, i <> j ->
    (c.2 !! i) ≫= live = Some s1 -> (c.2 !! j) ≫= live = Some s2 ->
    lock_path s1 <> lock_path s2.

(** Runs a lone process until it owns a socket or has failed. *)
Fixpoint run_alone (fuel : nat) (p : Proc) : M Proc :=
  match fuel, p with
  | _, PAlive _ | _, PFailed _ => ret p
  | 0, _ => ret p
  | S f, _ => let* p' := proc_step p in run_alone f p'
  end.

(** ** Invariants of the kernel state *)

(** Allocated fds and inodes are below the allocation counters, and locks
    are held on allocated inodes through allocated fds. *)
Definition wf (w : World) : Prop :=
  (forall fd i, fds w !! fd = Some i -> fd < next_fd w /\ i < next_ino w) /\
  (forall i h, locks w !! i = Some h -> i < next_ino w /\ is_Some (fds w !! h)) /\
  (forall p n, fs w !! p = Some n ->
     match n with File i _ | Sock i => i < next_ino w end).

(** The socket [s] holds its lock: its lock file is in place and locked
    through [_lock s]. *)
Definition holds_lock (s : WaylandSocket) (w : World) : Prop :=
  exists i m, fs w !! lock_path s = Some (File i m) /\
              fds w !! _lock s = Some i /\ locks w !! i = Some (_lock s).

(** The candidates tried, in order, each of them refused with
    [LockAcquire]: running them from [w] leads to [w1]. *)
Fixpoint all_contended (dir : string) (tried : list string) (w w1 : World) : Prop :=
  match tried with
  | [] => w1 = w
  | nm :: t =>
      exists e wm, with_name_in_dir dir nm w = Some (wm, Err (LockAcquire e)) /\
                   all_contended dir t wm w1
  end.

(** The path derivation in the words of the specification:
    [bind_path = directory/name], [lock_path = directory/name + ".lock"]. *)
Definition spec_build_paths (dir nm : string) : string * string :=
  (dir +:+ "/" +:+ nm, dir +:+ "/" +:+ nm +:+ ".lock").

(** [world0] on a kernel that has run out of lock records. *)
Definition world_nolck : World :=
  mkWorld ∅ 0 ∅ 3 ∅ [] 18 (Present "/run/user/1000")
    (fun _ => true) (fun _ => true) (fun _ => true) true.

(** [world0] where every bind is refused. *)
Definition world_nobind : World :=
  mkWorld ∅ 0 ∅ 3 ∅ [] 18 (Present "/run/user/1000")
    (fun _ => true) (fun _ => true) (fun _ => false) false.

(** The lock file [lp] is absent, or present and not locked. *)
Definition lock_free (w : World) (lp : string) : Prop :=
  fs w !! lp = None \/ exists j m, fs w !! lp = Some (File j m) /\ locks w !! j = None.

(** Every [unlink] in the trace segment [seg] comes after a successful
    [flock]. *)
Definition unlink_after_flock (seg : list Event) : Prop :=
  forall k p b, seg !! k = Some (EvUnlink p b) ->
    exists j fd, j < k /\ seg !! j = Some (EvFlock fd true).

(** [world0] with a socket file left behind at wayland-1 by a crashed
    owner, and no lock file. *)
Definition world_stale : World :=
  mkWorld {[ "/run/user/1000/wayland-1" := Sock 0 ]} 1 ∅ 3 ∅ [] 18
    (Present "/run/user/1000") (fun _ => true) (fun _ => true) (fun _ => true) false.

(** A compositor alive on wayland-1: its lock file (inode 0, mode 0o600)
    is locked through fd 3 and its listening socket (inode 1) is fd 4. *)
Definition sock_alive : WaylandSocket :=
  {| listener := 4; name := "wayland-1"; bind_path := "/run/user/1000/wayland-1";
     lock_path := "/run/user/1000/wayland-1.lock"; _lock := 3 |}.

Definition world_alive : World :=
  mkWorld (<[ "/run/user/1000/wayland-1" := Sock 1 ]>
             {[ "/run/user/1000/wayland-1.lock" := File 0 384 ]}) 2
    (<[ 4 := 1 ]> {[ 3 := 0 ]}) 5 {[ 0 := 3 ]} [] 18
    (Present "/run/user/1000") (fun _ => true) (fun _ => true) (fun _ => true) false.

(** Three processes selecting wayland-1 in the same directory. *)
Definition race_init : Config :=
  (world0, [PStart "/run/user/1000" "wayland-1"; PStart "/run/user/1000" "wayland-1";
            PStart "/run/user/1000" "wayland-1"]).

(** Process 0 gets the socket; process 1 opens the lock file; process 0
    drops its socket (both unlinks, then the closes); process 2 gets a
    socket; process 1 takes the lock of the unlinked lock file, unlinks the
    socket of process 2 and binds its own. *)
Definition race_schedule : list nat := [0;0;0;0; 1; 0;0;0; 2;2;2;2; 1;1;1].

(** The sockets processes 1 and 2 own at the end of [race_schedule]. *)
Definition race_owner1 : WaylandSocket :=
  {| listener := 8; name := "wayland-1"; bind_path := "/run/user/1000/wayland-1";
     lock_path := "/run/user/1000/wayland-1.lock"; _lock := 5 |}.

Definition race_owner2 : WaylandSocket :=
  {| listener := 7; name := "wayland-1"; bind_path := "/run/user/1000/wayland-1";
     lock_path := "/run/user/1000/wayland-1.lock"; _lock := 6 |}.

(** The world [w] with [XDG_RUNTIME_DIR] set to [v]. *)
Definition with_xdg (v : EnvVar) (w : World) : World :=
  mkWorld (fs w) (next_ino w) (fds w) (next_fd w) (locks w) (trace w) (umask w)
    v (open_ok w) (unlink_ok w) (bind_ok w) (lock_records_exhausted w).

(** Descriptor/lock coherence on top of [wf]: every lock is held through
    a descriptor open on the locked inode, as [flock] establishes it. *)
Definition kernel_ok (w : World) : Prop :=
  wf w /\ forall i h, locks w !! i = Some h -> fds w !! h = Some i.

(** The computation [m] keeps the state predicate [P]. *)
Definition preserves {A} (P : World -> Prop) (m : M A) : Prop :=
  forall w w' a, P w -> m w = Some (w', a) -> P w'.

(* ================================================================== *)
(** * Properties *)

(** ** Generic lemmas *)

Lemma bindM_Some {A B} (m : M A) (k : A -> M B) w w1 a :
  m w = Some (w1, a) -> bindM m k w = k a w1.
Proof. intros H. unfold bindM. rewrite H. reflexivity. Qed.

Lemma string_app_assoc (a b c : string) : (a +:+ b) +:+ c = a +:+ (b +:+ c).
Proof. induction a as [|x a IH]; [reflexivity | exact (f_equal (String x) IH)]. Qed.

Lemma string_length_app (a b : string) :
  String.length (a +:+ b) = String.length a + String.length b.
Proof. induction a as [|x a IH]; [reflexivity | exact (f_equal S IH)]. Qed.

Lemma is_absolute_app_lock (nm : string) :
  is_absolute (nm +:+ ".lock") = is_absolute nm.
Proof. destruct nm; reflexivity. Qed.

Lemma join_lock (dir nm : string) :
  join dir (nm +:+ ".lock") = join dir nm +:+ ".lock".
Proof.
  unfold join. rewrite is_absolute_app_lock.
  destruct (is_absolute nm); [reflexivity|].
  destruct (match last_char dir with Some c => negb (is_sep c) | None => false end).
  - now rewrite !string_app_assoc.
  - now rewrite string_app_assoc.
Qed.

Lemma build_paths_lock (dir nm : string) :
  (build_paths dir nm).2 = (build_paths dir nm).1 +:+ ".lock".
Proof. apply join_lock. Qed.

Lemma build_paths_distinct (dir nm : string) :
  (build_paths dir nm).1 <> (build_paths dir nm).2.
Proof.
  rewrite build_paths_lock. intros H.
  apply (f_equal String.length) in H. rewrite string_length_app in H.
  simpl in H. lia.
Qed.

(** Computes the projections of a world built by the system calls. *)
Ltac wsimp :=
  cbn [fs next_ino fds next_fd locks trace umask xdg_var open_ok unlink_ok
       bind_ok lock_records_exhausted log new_fd new_node set_fs set_fds
       set_locks negb fst snd] in *.

(** Case analysis on an innermost test, in the goal or in a hypothesis. *)
Ltac split_inner :=
  match goal with
  | |- context [match ?x with _ => _ end] =>
      lazymatch x with
      | context [match _ with _ => _ end] => fail
      | _ => destruct x eqn:?
      end
  | H : context [match ?x with _ => _ end] |- _ =>
      lazymatch x with
      | context [match _ with _ => _ end] => fail
      | _ => destruct x eqn:?
      end
  end.

(** Symbolic execution of the system calls. *)
Ltac run_syscalls :=
  unfold lock_file, openat, flock, close, unlink, bind, bindM, ret in *;
  repeat first [progress wsimp |
                progress rewrite ?lookup_insert_eq, ?lookup_delete_eq |
                match goal with
                | H : context [<[?k := _]> _ !! ?k] |- _ => rewrite lookup_insert_eq in H
                | |- context [<[?k := _]> _ !! ?j] =>
                    rewrite (lookup_insert_ne _ k j) by congruence
                | |- context [delete ?k _ !! ?j] =>
                    rewrite (lookup_delete_ne _ k j) by congruence
                | H : negb _ = true |- _ => apply negb_true_iff in H
                | H : negb _ = false |- _ => apply negb_false_iff in H
                end |
                progress simplify_eq | split_inner].

(** ** C10: no candidates *)

(** C10: on the empty candidate sequence [with_candidates_in_dir] returns
    [NoAvailableSocket] and leaves the world as it was: no system call is
    issued (the trace is unchanged), no file is opened, created, removed or
    bound. *)
Theorem with_candidates_in_dir_nil (dir : string) (w : World) :
  with_candidates_in_dir dir [] w = Some (w, Err NoAvailableSocket).
Proof. reflexivity. Qed.

(** ** C9: the default candidates *)

(** C9 as stated fails: the default sequence does not have 32 candidates. *)
Lemma auto_candidates_not_32 : length auto_candidates <> 32.
Proof. vm_compute. discriminate. Qed.

(** C9 (amended): [auto] tries the names "wayland-" + i for i = 1, ..., 31
    in increasing order (the Rust range [1..32] excludes 32 and index 0 is
    skipped): 31 candidates, neither "wayland-0" nor "wayland-32" among
    them. *)
Theorem auto_candidates_spec :
  auto_candidates = map (fun i => "wayland-" +:+ string_of_nat i) (seq 1 31) /\
  length auto_candidates = 31 /\
  head auto_candidates = Some "wayland-1" /\
  last auto_candidates = Some "wayland-31" /\
  ("wayland-0" ∉ auto_candidates) /\ ("wayland-32" ∉ auto_candidates) /\
  (forall w, auto w = with_candidates auto_candidates w).
Proof.
  split; [reflexivity|]. split; [reflexivity|]. split; [reflexivity|].
  split; [vm_compute; reflexivity|].
  split; [apply (bool_decide_unpack _); vm_compute; reflexivity|].
  split; [apply (bool_decide_unpack _); vm_compute; reflexivity|].
  reflexivity.
Qed.

(** ** C3: the path derivation *)

(** C3 fails for an absolute name: [Path::join] then discards the
    directory, so the socket is not at directory/name but at the name
    itself.  [with_name "/tmp/x"], documented to create the socket under
    [XDG_RUNTIME_DIR] (here "/run/user/1000"), binds a socket file at
    "/tmp/x" and locks "/tmp/x.lock", outside that directory. *)
Lemma build_paths_absolute_name :
  let r := default (world0, Err NoAvailableSocket) (with_name "/tmp/x" world0) in
  let s := match snd r with Ok s => s | Err _ => sock_alive end in
  xdg_var world0 = Present "/run/user/1000" /\
  build_paths "/run/user/1000" "/tmp/x" = ("/tmp/x", "/tmp/x.lock") /\
  build_paths "/run/user/1000" "/tmp/x" <> spec_build_paths "/run/user/1000" "/tmp/x" /\
  with_name "/tmp/x" world0 = Some (fst r, Ok s) /\
  bind_path s = "/tmp/x" /\ lock_path s = "/tmp/x.lock" /\
  String.prefix "/run/user/1000/" (bind_path s) = false /\
  String.prefix "/run/user/1000/" (lock_path s) = false /\
  match fs (fst r) !! "/tmp/x" with Some (Sock _) => True | _ => False end /\
  holds_lock s (fst r).
Proof.
  intros r s.
  split; [reflexivity|]. split; [reflexivity|]. split; [vm_compute; discriminate|].
  split; [vm_compute; reflexivity|].
  split; [vm_compute; reflexivity|]. split; [vm_compute; reflexivity|].
  split; [vm_compute; reflexivity|]. split; [vm_compute; reflexivity|].
  split; [vm_compute; exact I|].
  unfold holds_lock. vm_compute. eexists _, _. split; [reflexivity|]. split; reflexivity.
Qed.

(** ** C8: invalid runtime directory *)

(** C8: when [XDG_RUNTIME_DIR] is unset or not absolute, [xdg_runtime_dir]
    fails with [RuntimeDirInvalid], and [auto], [with_candidates] and
    [with_name] return that error with the world unchanged: no system call,
    no file created. *)
Theorem xdg_invalid_no_fs (w : World) (cands : list string) (nm : string)
    (Hvar : xdg_var w = NotPresent \/
            exists s, xdg_var w = Present s /\ is_absolute s = false) :
  xdg_runtime_dir w = Some (w, Err RuntimeDirInvalid) /\
  auto w = Some (w, Err RuntimeDirInvalid) /\
  with_candidates cands w = Some (w, Err RuntimeDirInvalid) /\
  with_name nm w = Some (w, Err RuntimeDirInvalid).
Proof.
  assert (Hx : xdg_runtime_dir w = Some (w, Err RuntimeDirInvalid)).
  { unfold xdg_runtime_dir. destruct Hvar as [-> | (s & -> & Hs)];
      [reflexivity | now rewrite Hs]. }
  unfold auto, with_candidates, with_name.
  now rewrite !(bindM_Some _ _ _ _ _ Hx).
Qed.

Lemma xdg_invalid_no_fs_witness :
  (xdg_var (with_xdg (Present "run/user/1000") world0) = NotPresent \/
   exists s, xdg_var (with_xdg (Present "run/user/1000") world0) = Present s /\
             is_absolute s = false) /\
  xdg_runtime_dir (with_xdg (Present "run/user/1000") world0) =
    Some (with_xdg (Present "run/user/1000") world0, Err RuntimeDirInvalid) /\
  auto (with_xdg (Present "run/user/1000") world0) =
    Some (with_xdg (Present "run/user/1000") world0, Err RuntimeDirInvalid) /\
  with_candidates ["a"] (with_xdg (Present "run/user/1000") world0) =
    Some (with_xdg (Present "run/user/1000") world0, Err RuntimeDirInvalid) /\
  with_name "a" (with_xdg (Present "run/user/1000") world0) =
    Some (with_xdg (Present "run/user/1000") world0, Err RuntimeDirInvalid).
Proof.
  assert (H : xdg_var (with_xdg (Present "run/user/1000") world0) = NotPresent \/
              exists s, xdg_var (with_xdg (Present "run/user/1000") world0) = Present s /\
                        is_absolute s = false)
    by (right; exists "run/user/1000"; split; reflexivity).
  split; [exact H | apply (xdg_invalid_no_fs _ ["a"] "a" H)].
Defined.

(** ** Totality: no call of the code is ever suspended *)

Lemma lock_file_total (path : string) (w : World) :
  exists w' r, lock_file path w = Some (w', r).
Proof. run_syscalls; eauto. Qed.

Lemma with_name_in_dir_total (dir nm : string) (w : World) :
  exists w' r, with_name_in_dir dir nm w = Some (w', r).
Proof.
  unfold with_name_in_dir. destruct (build_paths dir nm) as [bp lp].
  run_syscalls; eauto.
Qed.

(** ** C1: the candidate loop *)

(** C1: [with_candidates_in_dir] tries the candidates in order: a prefix
    [tried] of them is refused with [LockAcquire] each, one after the
    other; then either the list is exhausted and the result is
    [NoAvailableSocket], or the next candidate's result is returned as it
    is, and it is not a [LockAcquire] error (success, [LockOpen] or
    [Bind]); nothing after it is tried.  The call always returns. *)
Theorem with_candidates_in_dir_order (dir : string) (cands : list string) (w : World) :
  match with_candidates_in_dir dir cands w with
  | None => False
  | Some (w', r) =>
      exists tried rest w1,
        cands = (tried ++ rest)%list /\ all_contended dir tried w w1 /\
        match rest with
        | [] => r = Err NoAvailableSocket /\ w' = w1
        | nm :: _ => with_name_in_dir dir nm w1 = Some (w', r) /\
                     forall e, r <> Err (LockAcquire e)
        end
  end.
Proof.
  revert w. induction cands as [|nm t IH]; intros w.
  - simpl. exists [], [], w. repeat split.
  - destruct (with_name_in_dir_total dir nm w) as (w1 & r & H).
    cbn [with_candidates_in_dir]. rewrite (bindM_Some _ _ _ _ _ H).
    destruct r as [s|e].
    + exists [], (nm :: t), w. split; [reflexivity|]. split; [reflexivity|].
      split; [exact H | discriminate].
    + destruct e as [| |e|e|e|e];
        try (exists [], (nm :: t), w; split; [reflexivity|]; split; [reflexivity|];
             split; [exact H | discriminate]).
      specialize (IH w1). destruct (with_candidates_in_dir dir t w1) as [[w' r']|];
        [|contradiction].
      destruct IH as (tried & rest & w2 & -> & Hc & Hr).
      exists (nm :: tried), rest, w2. split; [reflexivity|].
      split; [|exact Hr]. simpl. eauto.
Qed.

(** ** Consequences of [wf] *)

Lemma wf_fds_fresh (w : World) : wf w -> fds w !! next_fd w = None.
Proof.
  intros (Hf & _ & _). destruct (fds w !! next_fd w) eqn:E; [|reflexivity].
  apply Hf in E. lia.
Qed.

Lemma wf_locks_fresh_fd (w : World) i : wf w -> locks w !! i <> Some (next_fd w).
Proof.
  intros Hw E. pose proof (wf_fds_fresh w Hw) as Hn.
  destruct Hw as (_ & Hl & _). apply Hl in E as [_ Hs].
  rewrite Hn in Hs. by destruct Hs.
Qed.

Lemma wf_locks_fresh_ino (w : World) : wf w -> locks w !! next_ino w = None.
Proof.
  intros (_ & Hl & _). destruct (locks w !! next_ino w) eqn:E; [|reflexivity].
  apply Hl in E. lia.
Qed.

Lemma wf_fs_ino (w : World) p n : wf w -> fs w !! p = Some n ->
  match n with File i _ | Sock i => i < next_ino w end.
Proof. intros (_ & _ & Hs) E. exact (Hs p n E). Qed.

(** ** C4: a failed bind releases the lock *)

(** C4: when the lock is taken but the bind fails, [with_name_in_dir]
    closes the lock descriptor (releasing the flock) before it returns the
    [Bind] error: the last system call is that [close], the lock table and
    the descriptor table are as they were before the call, and no
    [WaylandSocket] is returned. *)
Theorem with_name_in_dir_bind_error (dir nm : string) (w w' : World) (e : Errno)
    (Hwf : wf w) (H : with_name_in_dir dir nm w = Some (w', Err (Bind e))) :
  locks w' = locks w /\ fds w' = fds w /\
  exists fd b,
    trace w' = (trace w ++ [EvOpenat (build_paths dir nm).2 true; EvFlock fd true;
                            EvUnlink (build_paths dir nm).1 b;
                            EvBind (build_paths dir nm).1 false; EvClose fd])%list.
Proof.
  pose proof (wf_fds_fresh w Hwf) as Hfd.
  pose proof (wf_locks_fresh_ino w Hwf) as Hino.
  unfold with_name_in_dir in H. destruct (build_paths dir nm) as [bp lp] eqn:Hb.
  simpl. run_syscalls.
  all: try (exfalso; solve [eapply wf_locks_fresh_fd; eauto]).
  all: split; [by rewrite delete_insert_id|].
  all: split; [by rewrite delete_insert_id|].
  all: eexists _, _; by rewrite <- !app_assoc.
Qed.

Lemma wf_world0 : wf world0.
Proof.
  split; [|split]; [intros ? ? H | intros ? ? H | intros ? ? H];
    vm_compute in H; discriminate.
Qed.

Lemma wf_world_nobind : wf world_nobind.
Proof.
  split; [|split]; [intros ? ? H | intros ? ? H | intros ? ? H];
    vm_compute in H; discriminate.
Qed.

Lemma with_name_in_dir_bind_error_witness :
  let w' := fst (default (world0, Err NoAvailableSocket)
                   (with_name_in_dir "/run/user/1000" "wayland-1" world_nobind)) in
  wf world_nobind /\
  with_name_in_dir "/run/user/1000" "wayland-1" world_nobind = Some (w', Err (Bind EACCES)) /\
  locks w' = locks world_nobind /\ fds w' = fds world_nobind /\
  exists fd b,
    trace w' = (trace world_nobind ++
                [EvOpenat (build_paths "/run/user/1000" "wayland-1").2 true; EvFlock fd true;
                 EvUnlink (build_paths "/run/user/1000" "wayland-1").1 b;
                 EvBind (build_paths "/run/user/1000" "wayland-1").1 false; EvClose fd])%list.
Proof.
  intros w'.
  assert (H : with_name_in_dir "/run/user/1000" "wayland-1" world_nobind =
              Some (w', Err (Bind EACCES))) by (vm_compute; reflexivity).
  split; [exact wf_world_nobind|]. split; [exact H|].
  exact (with_name_in_dir_bind_error "/run/user/1000" "wayland-1" world_nobind w' EACCES
           wf_world_nobind H).
Defined.

(** ** C6: stale socket files are removed only under the lock *)

Lemma with_name_in_dir_trace (dir nm : string) (w : World) :
  match with_name_in_dir dir nm w with
  | None => False
  | Some (w', r) =>
      exists seg, trace w' = (trace w ++ seg)%list /\ unlink_after_flock seg /\
        ((exists e, r = Err (LockOpen e) \/ r = Err (LockAcquire e)) ->
         forall p b, EvUnlink p b ∉ seg)
  end.
Proof.
  unfold with_name_in_dir. destruct (build_paths dir nm) as [bp lp] eqn:Hb.
  run_syscalls.
  all: eexists; (split; [by rewrite <- ?app_assoc|]).
  all: split; [intros k p b Hk; destruct k as [|[|[|[|[|k]]]]]; simpl in Hk; try discriminate;
               exists 1; eexists; split; (lia || reflexivity)|].
  all: intros (e' & [He|He]) p b Hin; try discriminate.
  all: simpl in Hin; rewrite ?elem_of_cons, ?elem_of_nil in Hin;
       intuition congruence.
Qed.

Lemma with_name_in_dir_stale (dir nm : string) (w : World) (i : nat)
    (Hwf : wf w) (Hstale : fs w !! (build_paths dir nm).1 = Some (Sock i))
    (Hfree : lock_free w (build_paths dir nm).2)
    (Hopen : open_ok w (build_paths dir nm).2 = true)
    (Hexh : lock_records_exhausted w = false)
    (Hunl : unlink_ok w (build_paths dir nm).1 = true)
    (Hbind : bind_ok w (build_paths dir nm).1 = true) :
  exists w' s i', with_name_in_dir dir nm w = Some (w', Ok s) /\
    fs w' !! bind_path s = Some (Sock i') /\ i' <> i /\ fds w' !! listener s = Some i'.
Proof.
  pose proof (build_paths_distinct dir nm) as Hd.
  pose proof (wf_fs_ino w _ _ Hwf Hstale) as Hi. simpl in Hi.
  pose proof (wf_locks_fresh_ino w Hwf) as Hino.
  unfold with_name_in_dir. destruct (build_paths dir nm) as [bp lp] eqn:Hb.
  simpl in *. destruct Hfree as [Hn | (j & m & Hj & Hl)].
  all: run_syscalls.
  all: try (rewrite ?Hopen, ?Hunl, ?Hbind, ?Hexh in *; simpl in *; congruence).
  all: eexists _, _, _; split; [reflexivity|]; wsimp.
  all: rewrite !lookup_insert_eq; split; [reflexivity|]; split; [lia|reflexivity].
Qed.

(** C6: [with_name_in_dir] always returns (it never suspends), and in every
    run the [unlink] of the socket path comes after a successful [flock] of
    the lock file; there is no [unlink] at all when locking fails
    ([LockOpen] or [LockAcquire]).  A socket file left at the bind path by
    a crashed owner, with the lock file absent or unlocked, is replaced by
    the new listening socket (a new inode) instead of making the bind fail,
    when the environment permits the calls. *)
Theorem with_name_in_dir_stale_after_lock (dir nm : string) (w : World) :
  is_Some (with_name_in_dir dir nm w) /\
  (forall w' r, with_name_in_dir dir nm w = Some (w', r) ->
      exists seg, trace w' = (trace w ++ seg)%list /\ unlink_after_flock seg /\
        ((exists e, r = Err (LockOpen e) \/ r = Err (LockAcquire e)) ->
         forall p b, EvUnlink p b ∉ seg)) /\
  (forall i, wf w -> fs w !! (build_paths dir nm).1 = Some (Sock i) ->
     lock_free w (build_paths dir nm).2 ->
     open_ok w (build_paths dir nm).2 = true -> lock_records_exhausted w = false ->
     unlink_ok w (build_paths dir nm).1 = true -> bind_ok w (build_paths dir nm).1 = true ->
     exists w' s i', with_name_in_dir dir nm w = Some (w', Ok s) /\
       fs w' !! bind_path s = Some (Sock i') /\ i' <> i /\ fds w' !! listener s = Some i').
Proof.
  pose proof (with_name_in_dir_trace dir nm w) as Ht.
  split; [|split].
  - destruct (with_name_in_dir dir nm w); [by eexists|contradiction].
  - intros w' r E. by rewrite E in Ht.
  - intros i Hwf Hs Hf Ho He Hu Hb. by apply with_name_in_dir_stale.
Qed.

Lemma wf_world_stale : wf world_stale.
Proof.
  split; [|split]; [intros ? ? H | intros ? ? H |]; [vm_compute in H; discriminate..|].
  intros p n H. unfold world_stale in H; wsimp.
  apply lookup_singleton_Some in H as [_ <-]. simpl. lia.
Qed.

Lemma with_name_in_dir_stale_after_lock_witness :
  exists w' s i', with_name_in_dir "/run/user/1000" "wayland-1" world_stale = Some (w', Ok s) /\
    fs w' !! bind_path s = Some (Sock i') /\ i' <> 0 /\ fds w' !! listener s = Some i'.
Proof.
  apply (proj2 (proj2 (with_name_in_dir_stale_after_lock "/run/user/1000" "wayland-1"
                         world_stale)) 0 wf_world_stale).
  all: try (left; vm_compute; reflexivity).
  all: vm_compute; reflexivity.
Defined.

(** ** C7: [lock_file] *)

Lemma ldiff_owner_only (u : N) :
  N.ldiff (N.ldiff (N.lor Mode_RUSR Mode_WUSR) u) (N.lor Mode_RUSR Mode_WUSR) = 0%N.
Proof.
  apply N.bits_inj_0. intros n. rewrite !N.ldiff_spec.
  destruct (N.testbit (N.lor Mode_RUSR Mode_WUSR) n); simpl; [|reflexivity].
  now rewrite andb_false_r.
Qed.

(** For contrast: the blocking variant of [flock] would suspend the caller
    on a lock held through another descriptor. *)
Lemma flock_blocking_waits (fd : nat) (w : World) i h :
  fds w !! fd = Some i -> locks w !! i = Some h -> h <> fd ->
  flock fd LockExclusive w = None.
Proof. intros Hf Hl Hh. unfold flock. rewrite Hf, Hl. by rewrite decide_False. Qed.

(** C7 as stated fails: [LockAcquire] is not reserved to a lock held by
    another holder.  On a kernel out of lock records, the free lock of a
    fresh lock file is refused with ENOLCK, which [lock_file] also reports
    as [LockAcquire]. *)
Lemma lock_file_enolck_without_holder :
  let w' := fst (default (world0, Err NoAvailableSocket)
                   (lock_file "/run/user/1000/wayland-1.lock" world_nolck)) in
  locks world_nolck = ∅ /\ fs world_nolck !! "/run/user/1000/wayland-1.lock" = None /\
  lock_file "/run/user/1000/wayland-1.lock" world_nolck = Some (w', Err (LockAcquire ENOLCK)).
Proof. intros w'. split; [reflexivity|]. split; vm_compute; reflexivity. Qed.

(** The outcomes of [lock_file], by cases on its result. *)
Lemma lock_file_cases (path : string) (w : World) (Hwf : wf w) :
  match lock_file path w with
  | None => False
  | Some (w', r) =>
      ((exists e, r = Err (LockOpen e)) <->
         open_ok w path = false \/ exists i, fs w !! path = Some (Sock i)) /\
      ((exists e, r = Err (LockAcquire e)) <->
         open_ok w path = true /\
         ((exists i m, fs w !! path = Some (File i m) /\ is_Some (locks w !! i)) \/
          (lock_records_exhausted w = true /\ lock_free w path))) /\
      (r = Err (LockAcquire EWOULDBLOCK) <->
         open_ok w path = true /\
         exists i m, fs w !! path = Some (File i m) /\ is_Some (locks w !! i)) /\
      (forall fd, r = Ok fd ->
         exists i m, fs w' !! path = Some (File i m) /\ fds w' !! fd = Some i /\
                     locks w' !! i = Some fd) /\
      (fs w !! path = None -> open_ok w path = true ->
         exists i m, fs w' !! path = Some (File i m) /\
                     N.ldiff m (N.lor Mode_RUSR Mode_WUSR) = 0%N)
  end.
Proof.
  pose proof (wf_fds_fresh w Hwf) as Hfd.
  pose proof (wf_locks_fresh_ino w Hwf) as Hino.
  run_syscalls.
  all: try (exfalso; solve [eapply wf_locks_fresh_fd; eauto]).
  all: unfold lock_free; wsimp.
  all: repeat match goal with
              | H : ?a = _ |- context [?a] => lazymatch a with ?f _ => rewrite H end
              end.
  all: repeat split; try naive_solver.
  all: try (intros; repeat match goal with
                   | H : _ /\ _ |- _ => destruct H
                   | H : exists _, _ |- _ => destruct H
                   | H : _ \/ _ |- _ => destruct H
                   | H : is_Some _ |- _ => destruct H
                   end; simplify_eq; congruence).
  all: try (intros fd [= <-]; do 2 eexists; split; [reflexivity|];
            by rewrite !lookup_insert_eq).
  all: intros _ _; do 2 eexists; split; [reflexivity|]; apply ldiff_owner_only.
Qed.

(** C7 (amended): [lock_file] opens the lock file or creates it with the
    permission bits [0o600 & ~umask] (owner read/write at most), then calls
    the non-blocking exclusive [flock]; it always returns (never suspends).
    It fails with [LockOpen] exactly when the open fails; with
    [LockAcquire] exactly when the open succeeds and [flock] fails: when
    another holder has the lock (then with EWOULDBLOCK, and only then), and
    also when [flock] itself fails on a free lock (ENOLCK).  On success the
    returned descriptor holds the lock of the file now at [path]. *)
Theorem lock_file_spec (path : string) (w : World) (Hwf : wf w) :
  is_Some (lock_file path w) /\
  forall w' r, lock_file path w = Some (w', r) ->
      ((exists e, r = Err (LockOpen e)) <->
         open_ok w path = false \/ exists i, fs w !! path = Some (Sock i)) /\
      ((exists e, r = Err (LockAcquire e)) <->
         open_ok w path = true /\
         ((exists i m, fs w !! path = Some (File i m) /\ is_Some (locks w !! i)) \/
          (lock_records_exhausted w = true /\ lock_free w path))) /\
      (r = Err (LockAcquire EWOULDBLOCK) <->
         open_ok w path = true /\
         exists i m, fs w !! path = Some (File i m) /\ is_Some (locks w !! i)) /\
      (forall fd, r = Ok fd ->
         exists i m, fs w' !! path = Some (File i m) /\ fds w' !! fd = Some i /\
                     locks w' !! i = Some fd) /\
      (fs w !! path = None -> open_ok w path = true ->
         exists i m, fs w' !! path = Some (File i m) /\
                     N.ldiff m (N.lor Mode_RUSR Mode_WUSR) = 0%N).
Proof.
  pose proof (lock_file_cases path w Hwf) as H.
  split; [destruct (lock_file path w); [by eexists|contradiction]|].
  intros w' r E. by rewrite E in H.
Qed.

Lemma lock_file_spec_witness :
  wf world0 /\
  exists w' r, lock_file "/run/user/1000/wayland-1.lock" world0 = Some (w', r) /\
    (forall fd, r = Ok fd ->
       exists i m, fs w' !! "/run/user/1000/wayland-1.lock" = Some (File i m) /\
                   fds w' !! fd = Some i /\ locks w' !! i = Some fd).
Proof.
  split; [exact wf_world0|].
  destruct (proj1 (lock_file_spec "/run/user/1000/wayland-1.lock" world0 wf_world0))
    as [[w' r] E].
  exists w', r. split; [exact E|].
  exact (proj1 (proj2 (proj2 (proj2
           (proj2 (lock_file_spec "/run/user/1000/wayland-1.lock" world0 wf_world0) w' r E))))).
Defined.

(** ** C5: cleanup on drop *)

Lemma unlink_facts (p : string) (w : World) :
  exists w1 r b, unlink p w = Some (w1, r) /\
    fs w1 = (if unlink_ok w p then delete p (fs w) else fs w) /\
    locks w1 = locks w /\ next_ino w1 = next_ino w /\
    open_ok w1 = open_ok w /\ unlink_ok w1 = unlink_ok w /\ bind_ok w1 = bind_ok w /\
    lock_records_exhausted w1 = lock_records_exhausted w /\
    trace w1 = (trace w ++ [EvUnlink p b])%list.
Proof.
  unfold unlink. destruct (unlink_ok w p) eqn:Hu; simpl.
  - destruct (fs w !! p) eqn:Hp; do 3 eexists; (split; [reflexivity|]); wsimp.
    + repeat split.
    + rewrite delete_id by exact Hp. repeat split.
  - do 3 eexists; split; [reflexivity|]. wsimp. repeat split.
Qed.

Lemma close_facts (fd : nat) (w : World) :
  exists w1, close fd w = Some (w1, tt) /\
    fs w1 = fs w /\ (forall i, locks w !! i = None -> locks w1 !! i = None) /\
    next_ino w1 = next_ino w /\
    open_ok w1 = open_ok w /\ unlink_ok w1 = unlink_ok w /\ bind_ok w1 = bind_ok w /\
    lock_records_exhausted w1 = lock_records_exhausted w /\
    trace w1 = (trace w ++ [EvClose fd])%list.
Proof.
  unfold close. destruct (fds w !! fd) as [i|]; eexists; (split; [reflexivity|]); wsimp.
  - repeat split. intros j Hj. case_decide; [|exact Hj].
    destruct (decide (i = j)) as [<-|Hne]; [apply lookup_delete_eq|].
    by rewrite lookup_delete_ne.
  - repeat split. intros j Hj. exact Hj.
Qed.

(** With the lock file absent and a fresh inode unlocked, a selection of
    [nm] succeeds when the environment permits the calls. *)
Lemma with_name_in_dir_fresh (dir nm : string) (w : World)
    (Hino : locks w !! next_ino w = None)
    (Hlp : fs w !! (build_paths dir nm).2 = None)
    (Hopen : open_ok w (build_paths dir nm).2 = true)
    (Hexh : lock_records_exhausted w = false)
    (Hunl : unlink_ok w (build_paths dir nm).1 = true)
    (Hbind : bind_ok w (build_paths dir nm).1 = true) :
  exists w' s, with_name_in_dir dir nm w = Some (w', Ok s) /\ name s = nm /\
    (bind_path s, lock_path s) = build_paths dir nm.
Proof.
  pose proof (build_paths_distinct dir nm) as Hd.
  unfold with_name_in_dir. destruct (build_paths dir nm) as [bp lp] eqn:Hb.
  simpl in *. run_syscalls.
  all: try (rewrite ?Hopen, ?Hunl, ?Hbind, ?Hexh in *; simpl in *; congruence).
  all: eexists _, _; split; [reflexivity|]; split; reflexivity.
Qed.

(** C5: dropping a [WaylandSocket] runs its cleanup once: one attempt to
    remove the file at [bind_path], then one at [lock_path], then the
    listener and the lock descriptor are closed.  Errors of the removals
    are swallowed: the drop always completes, whatever the environment.
    When the removals are permitted, both paths no longer exist afterwards,
    and (the environment permitting the calls of a selection) a new
    selection for the same name in the same directory succeeds at once,
    with the same two paths. *)
Theorem drop_cleanup (s : WaylandSocket) (w : World) :
  exists w', drop s w = Some (w', tt) /\
    (exists b1 b2, trace w' = (trace w ++ [EvUnlink (bind_path s) b1;
                                          EvUnlink (lock_path s) b2;
                                          EvClose (listener s); EvClose (_lock s)])%list) /\
    (unlink_ok w (bind_path s) = true -> fs w' !! bind_path s = None) /\
    (unlink_ok w (lock_path s) = true -> fs w' !! lock_path s = None) /\
    (forall dir nm rest, wf w -> build_paths dir nm = (bind_path s, lock_path s) ->
       unlink_ok w (bind_path s) = true -> unlink_ok w (lock_path s) = true ->
       open_ok w (lock_path s) = true -> bind_ok w (bind_path s) = true ->
       lock_records_exhausted w = false ->
       exists w'' s', with_candidates_in_dir dir (nm :: rest) w' = Some (w'', Ok s') /\
         name s' = nm /\ bind_path s' = bind_path s /\ lock_path s' = lock_path s).
Proof.
  destruct (unlink_facts (bind_path s) w)
    as (w1 & r1 & b1 & E1 & Fs1 & L1 & I1 & O1 & U1 & B1 & X1 & T1).
  destruct (unlink_facts (lock_path s) w1)
    as (w2 & r2 & b2 & E2 & Fs2 & L2 & I2 & O2 & U2 & B2 & X2 & T2).
  destruct (close_facts (listener s) w2)
    as (w3 & E3 & Fs3 & L3 & I3 & O3 & U3 & B3 & X3 & T3).
  destruct (close_facts (_lock s) w3)
    as (w4 & E4 & Fs4 & L4 & I4 & O4 & U4 & B4 & X4 & T4).
  assert (Hbp : unlink_ok w (bind_path s) = true -> fs w4 !! bind_path s = None).
  { intros Hu. rewrite Fs4, Fs3, Fs2, Fs1, U1, Hu.
    destruct (unlink_ok w (lock_path s)); [|apply lookup_delete_eq].
    destruct (decide (lock_path s = bind_path s)) as [->|Hne];
      [apply lookup_delete_eq|]. rewrite lookup_delete_ne by congruence.
    apply lookup_delete_eq. }
  assert (Hlp : unlink_ok w (lock_path s) = true -> fs w4 !! lock_path s = None).
  { intros Hu. rewrite Fs4, Fs3, Fs2, U1, Hu. apply lookup_delete_eq. }
  exists w4. split.
  { unfold drop. rewrite (bindM_Some _ _ _ _ _ E1), (bindM_Some _ _ _ _ _ E2),
      (bindM_Some _ _ _ _ _ E3). exact E4. }
  split; [exists b1, b2; rewrite T4, T3, T2, T1; by rewrite <- !app_assoc|].
  split; [exact Hbp|]. split; [exact Hlp|].
  intros dir nm rest Hwf Hpaths Hub Hul Ho Hb He.
  assert (Hino : locks w4 !! next_ino w4 = None).
  { rewrite I4, I3, I2, I1. apply L4, L3. rewrite L2, L1. by apply wf_locks_fresh_ino. }
  destruct (with_name_in_dir_fresh dir nm w4 Hino)
    as (w5 & s' & E5 & Hn & Hp); rewrite ?Hpaths; simpl.
  - by apply Hlp.
  - by rewrite O4, O3, O2, O1.
  - by rewrite X4, X3, X2, X1.
  - by rewrite U4, U3, U2, U1.
  - by rewrite B4, B3, B2, B1.
  - rewrite (bindM_Some _ _ _ _ _ E5). exists w5, s'. rewrite Hpaths in Hp.
    injection Hp as Hp1 Hp2. by repeat split.
Qed.

Lemma wf_world_alive : wf world_alive.
Proof.
  unfold world_alive. split; [|split]; wsimp.
  - intros fd i H. apply lookup_insert_Some in H as [[<- <-]|[_ H]]; [lia|].
    apply lookup_singleton_Some in H as [<- <-]. lia.
  - intros i h H. apply lookup_singleton_Some in H as [<- <-]. split; [lia|].
    by eexists.
  - intros p n H. apply lookup_insert_Some in H as [[_ <-]|[_ H]]; [simpl; lia|].
    apply lookup_singleton_Some in H as [_ <-]. simpl. lia.
Qed.

Lemma drop_cleanup_witness :
  wf world_alive /\
  exists w', drop sock_alive world_alive = Some (w', tt) /\
    exists w'' s', with_candidates_in_dir "/run/user/1000" ["wayland-1"] w' = Some (w'', Ok s') /\
      name s' = "wayland-1".
Proof.
  split; [exact wf_world_alive|].
  destruct (drop_cleanup sock_alive world_alive) as (w' & E & _ & _ & _ & Hsel).
  exists w'. split; [exact E|].
  destruct (Hsel "/run/user/1000" "wayland-1" [] wf_world_alive) as (w'' & s' & E' & Hn & _);
    [vm_compute; reflexivity..|].
  exists w'', s'. split; [exact E'|exact Hn].
Defined.

(** ** C2: exclusion between owners of a name *)

Lemma run_schedule_rtc (sched : list nat) (c c' : Config) :
  run_schedule sched c = Some c' -> rtc step c c'.
Proof.
  revert c. induction sched as [|i rest IH]; intros [w ps] H; simpl in H.
  - injection H as <-. apply rtc_refl.
  - destruct (ps !! i) as [p|] eqn:Hp; [|discriminate].
    destruct (proc_step p w) as [[w' p']|] eqn:Hs; [|discriminate].
    eapply rtc_l; [by econstructor|]. by apply IH.
Qed.

(** C2 as stated fails across processes.  [Drop] unlinks the lock file
    before the lock descriptor is closed.  A process that opened the lock
    file just before the unlink takes the lock of the unlinked inode once
    the owner closes it, while a third process creates a new lock file and
    locks it: both end up owning a live socket for wayland-1, each holding
    a flock, and the late one has unlinked the other's socket file (the
    inode at [bind_path] is no longer that of the other's listener). *)
Lemma drop_race_two_owners :
  exists c, rtc step race_init c /\
    c.2 !! 1 = Some (PAlive race_owner1) /\ c.2 !! 2 = Some (PAlive race_owner2) /\
    locks c.1 !! 0 = Some (_lock race_owner1) /\ locks c.1 !! 2 = Some (_lock race_owner2) /\
    fds c.1 !! listener race_owner2 = Some 3 /\
    fs c.1 !! bind_path race_owner2 = Some (Sock 4) /\
    ~ mutual_exclusion c.
Proof.
  pose (c := default race_init (run_schedule race_schedule race_init)).
  assert (E : run_schedule race_schedule race_init = Some c) by (vm_compute; reflexivity).
  assert (H1 : c.2 !! 1 = Some (PAlive race_owner1)) by (vm_compute; reflexivity).
  assert (H2 : c.2 !! 2 = Some (PAlive race_owner2)) by (vm_compute; reflexivity).
  exists c. split; [exact (run_schedule_rtc _ _ _ E)|].
  split; [exact H1|]. split; [exact H2|].
  split; [vm_compute; reflexivity|]. split; [vm_compute; reflexivity|].
  split; [vm_compute; reflexivity|]. split; [vm_compute; reflexivity|].
  intros Hme. apply (Hme 1 2 race_owner1 race_owner2).
  - lia.
  - by rewrite H1.
  - by rewrite H2.
  - reflexivity.
Qed.

(** C2 (amended): while a [WaylandSocket] [s] holds its lock (its lock
    file is in place and locked through [_lock s]), an attempt to
    construct a socket for the same name in the same directory always
    returns, and fails: with [LockAcquire] (EWOULDBLOCK) when the lock file
    can be opened, with [LockOpen] otherwise.  It leaves the files, the
    descriptor table and the lock table as they were, and [s] still holds
    its lock.  The exclusion is not kept when the owner's drop interleaves
    with a construction (see [drop_race_two_owners]). *)
Theorem second_attempt_refused (dir nm : string) (s : WaylandSocket) (w : World)
    (Hwf : wf w) (Hheld : holds_lock s w) (Hlp : lock_path s = (build_paths dir nm).2) :
  is_Some (with_name_in_dir dir nm w) /\
  forall w' r, with_name_in_dir dir nm w = Some (w', r) ->
    ((r = Err (LockAcquire EWOULDBLOCK) /\ open_ok w (lock_path s) = true) \/
     ((exists e, r = Err (LockOpen e)) /\ open_ok w (lock_path s) = false)) /\
    fs w' = fs w /\ fds w' = fds w /\ locks w' = locks w /\ holds_lock s w'.
Proof.
  split; [destruct (with_name_in_dir_total dir nm w) as (w' & r & E); by eexists|].
  pose proof (wf_fds_fresh w Hwf) as Hfd.
  destruct Hheld as (i & m & Hf & Hd & Hl).
  assert (Hne : _lock s <> next_fd w) by (intros Heq; rewrite Heq in Hd; congruence).
  intros w' r E.
  enough (fs w' = fs w /\ fds w' = fds w /\ locks w' = locks w /\
          ((r = Err (LockAcquire EWOULDBLOCK) /\ open_ok w (lock_path s) = true) \/
           ((exists e, r = Err (LockOpen e)) /\ open_ok w (lock_path s) = false)))
    as (Efs & Efd & El & Hr).
  { split; [exact Hr|]. do 3 (split; [assumption|]).
    exists i, m. by rewrite Efs, Efd, El. }
  unfold with_name_in_dir in E. destruct (build_paths dir nm) as [bp lp] eqn:Hb.
  simpl in Hlp. subst lp. run_syscalls.
  all: try congruence.
  all: repeat split; try by rewrite ?delete_insert_id.
  all: try (left; split; (reflexivity || assumption)).
  all: right; split; [by eexists|assumption].
Qed.

Lemma holds_lock_alive : holds_lock sock_alive world_alive.
Proof. exists 0, 384%N. split; [|split]; vm_compute; reflexivity. Qed.

Lemma second_attempt_refused_witness :
  wf world_alive /\ holds_lock sock_alive world_alive /\
  exists w', with_name_in_dir "/run/user/1000" "wayland-1" world_alive =
               Some (w', Err (LockAcquire EWOULDBLOCK)) /\ holds_lock sock_alive w'.
Proof.
  split; [exact wf_world_alive|]. split; [exact holds_lock_alive|].
  assert (Hlp : lock_path sock_alive = (build_paths "/run/user/1000" "wayland-1").2)
    by (vm_compute; reflexivity).
  destruct (second_attempt_refused "/run/user/1000" "wayland-1" sock_alive world_alive
              wf_world_alive holds_lock_alive Hlp) as [[[w' r] E] Hall].
  destruct (Hall w' r E) as ([[-> _] | [_ Ho]] & _ & _ & _ & Hh).
  - exists w'. split; [exact E | exact Hh].
  - exfalso. vm_compute in Ho. discriminate.
Defined.

(** ** The rest of the module: resources, composition, drop *)

Lemma preserves_ret {A} P (a : A) : preserves P (ret a).
Proof. intros w w' b Hw E. unfold ret in E. by simplify_eq. Qed.

Lemma preserves_bind {A B} P (m : M A) (k : A -> M B) :
  preserves P m -> (forall a, preserves P (k a)) -> preserves P (bindM m k).
Proof.
  intros Hm Hk w w' b Hw E. unfold bindM in E.
  destruct (m w) as [[w1 a]|] eqn:E1; [|discriminate].
  eapply Hk; [|exact E]. eapply Hm; eauto.
Qed.

Lemma kernel_ok_log ev w : kernel_ok w -> kernel_ok (log ev w).
Proof. exact id. Qed.

Lemma kernel_ok_new_fd i w : kernel_ok w -> i < next_ino w -> kernel_ok (new_fd i w).
Proof.
  intros [(Hf & Hl & Hs) Hc] Hi. unfold new_fd. split; [split; [|split]|]; simpl.
  - intros fd j H. apply lookup_insert_Some in H as [[<- <-]|[_ H]]; [lia|].
    apply Hf in H. lia.
  - intros j h H. destruct (Hl j h H) as [Hj _]. split; [lia|].
    apply Hc in H. pose proof (Hf _ _ H) as [Hh _].
    rewrite lookup_insert_ne by lia. eexists. exact H.
  - exact Hs.
  - intros j h H. apply Hc in H. pose proof (Hf _ _ H).
    rewrite lookup_insert_ne by lia. exact H.
Qed.

Lemma kernel_ok_new_node p f w :
  kernel_ok w -> match f (next_ino w) with File i _ | Sock i => i = next_ino w end ->
  kernel_ok (new_node p f w).
Proof.
  intros [(Hf & Hl & Hs) Hc] Hn. unfold new_node. split; [split; [|split]|]; simpl.
  - intros fd j H. apply Hf in H. lia.
  - intros j h H. destruct (Hl j h H). split; [lia|done].
  - intros q n H. apply lookup_insert_Some in H as [[_ <-]|[_ H]].
    + destruct (f (next_ino w)); lia.
    + specialize (Hs q n H). destruct n; lia.
  - exact Hc.
Qed.

Lemma kernel_ok_delete_fs p w : kernel_ok w -> kernel_ok (set_fs (delete p (fs w)) w).
Proof.
  intros [(Hf & Hl & Hs) Hc]. split; [split; [|split]|]; simpl; try done.
  intros q n H. apply lookup_delete_Some in H as [_ H]. exact (Hs q n H).
Qed.

Lemma openat_kernel_ok p fl md : preserves kernel_ok (openat p fl md).
Proof.
  intros w w' a Hw E. unfold openat in E.
  repeat (case_match; simplify_eq); apply kernel_ok_log; try done.
  - apply kernel_ok_new_fd; [done|].
    destruct Hw as [(_ & _ & Hs) _]. exact (Hs _ _ H0).
  - apply kernel_ok_new_fd; [apply kernel_ok_new_node; done|]. simpl. lia.
Qed.

Lemma flock_kernel_ok fd op : preserves kernel_ok (flock fd op).
Proof.
  intros w w' a Hw E. unfold flock in E.
  repeat (case_match; simplify_eq); apply kernel_ok_log; try done.
  destruct Hw as [(Hf & Hl & Hs) Hc]. split; [split; [|split]|]; simpl; try done.
  - intros j h H'. apply lookup_insert_Some in H' as [[<- <-]|[_ H']].
    + split; [apply (Hf _ _ H)|by eexists].
    + exact (Hl _ _ H').
  - intros j h H'. apply lookup_insert_Some in H' as [[<- <-]|[_ H']]; [done|].
    exact (Hc _ _ H').
Qed.

Lemma close_kernel_ok fd : preserves kernel_ok (close fd).
Proof.
  intros w w' a Hw E. unfold close in E.
  destruct (fds w !! fd) as [i|] eqn:Hfd; simplify_eq; apply kernel_ok_log; [|done].
  destruct Hw as [(Hf & Hl & Hs) Hc].
  assert (Hc' : forall j h, (if decide (locks w !! i = Some fd) then delete i (locks w)
                             else locks w) !! j = Some h ->
                 delete fd (fds w) !! h = Some j).
  { intros j h H. assert (Hj : locks w !! j = Some h).
    { case_decide; [apply lookup_delete_Some in H as [_ H]|]; exact H. }
    destruct (decide (h = fd)) as [->|Hne].
    - exfalso. pose proof (Hc _ _ Hj) as Hh. rewrite Hfd in Hh. injection Hh as ->.
      case_decide; [rewrite lookup_delete_eq in H; discriminate|congruence].
    - rewrite lookup_delete_ne by congruence. exact (Hc _ _ Hj). }
  split; [split; [|split]|]; simpl; [| |exact Hs|exact Hc'].
  - intros f j H. apply lookup_delete_Some in H as [_ H]. exact (Hf _ _ H).
  - intros j h H. split.
    + case_decide; [apply lookup_delete_Some in H as [_ H]|]; exact (proj1 (Hl _ _ H)).
    + eexists. exact (Hc' _ _ H).
Qed.

Lemma unlink_kernel_ok p : preserves kernel_ok (unlink p).
Proof.
  intros w w' a Hw E. unfold unlink in E.
  repeat (case_match; simplify_eq); apply kernel_ok_log; try done.
  by apply kernel_ok_delete_fs.
Qed.

Lemma bind_kernel_ok p : preserves kernel_ok (bind p).
Proof.
  intros w w' a Hw E. unfold bind in E.
  repeat (case_match; simplify_eq); apply kernel_ok_log; try done.
  apply kernel_ok_new_fd; [by apply kernel_ok_new_node|]. simpl. lia.
Qed.

Lemma lock_file_kernel_ok p : preserves kernel_ok (lock_file p).
Proof.
  unfold lock_file. apply preserves_bind; [apply openat_kernel_ok|].
  intros [fd|e]; [|apply preserves_ret].
  apply preserves_bind; [apply flock_kernel_ok|].
  intros [u|e]; [apply preserves_ret|].
  apply preserves_bind; [apply close_kernel_ok|intros; apply preserves_ret].
Qed.

Lemma with_name_in_dir_kernel_ok dir nm : preserves kernel_ok (with_name_in_dir dir nm).
Proof.
  unfold with_name_in_dir. destruct (build_paths dir nm) as [bp lp].
  apply preserves_bind; [apply lock_file_kernel_ok|].
  intros [lk|e]; [|apply preserves_ret].
  apply preserves_bind; [apply unlink_kernel_ok|intros _].
  apply preserves_bind; [apply bind_kernel_ok|].
  intros [l|e]; [apply preserves_ret|].
  apply preserves_bind; [apply close_kernel_ok|intros; apply preserves_ret].
Qed.

Lemma with_candidates_in_dir_kernel_ok dir cands :
  preserves kernel_ok (with_candidates_in_dir dir cands).
Proof.
  induction cands as [|nm t IH]; simpl; [apply preserves_ret|].
  apply preserves_bind; [apply with_name_in_dir_kernel_ok|].
  intros [s|[]]; try apply preserves_ret. exact IH.
Qed.

Lemma drop_kernel_ok s : preserves kernel_ok (drop s).
Proof.
  unfold drop. repeat (apply preserves_bind; [first [apply unlink_kernel_ok|apply close_kernel_ok]|intros _]).
  apply close_kernel_ok.
Qed.

Lemma with_name_in_dir_error_frame (dir nm : string) (w w' : World) (e : SocketError)
    (Hwf : wf w) (H : with_name_in_dir dir nm w = Some (w', Err e)) :
  fds w' = fds w /\ locks w' = locks w /\
  ((exists e', e = LockOpen e' \/ e = LockAcquire e') ->
   forall p, p <> (build_paths dir nm).2 -> fs w' !! p = fs w !! p).
Proof.
  pose proof (wf_fds_fresh w Hwf) as Hfd.
  pose proof (wf_locks_fresh_ino w Hwf) as Hino.
  unfold with_name_in_dir in H. destruct (build_paths dir nm) as [bp lp] eqn:Hb.
  simpl. run_syscalls.
  all: try (exfalso; solve [eapply wf_locks_fresh_fd; eauto]).
  all: split; [by rewrite ?delete_insert_id|].
  all: split; [by rewrite ?delete_insert_id|].
  all: intros (e' & [He|He]) p Hp; try discriminate; try reflexivity.
  all: by rewrite lookup_insert_ne by congruence.
Qed.

Lemma with_name_in_dir_errors (dir nm : string) (w w' : World) (e : SocketError)
    (H : with_name_in_dir dir nm w = Some (w', Err e)) :
  exists e', e = LockOpen e' \/ e = LockAcquire e' \/ e = Bind e'.
Proof.
  unfold with_name_in_dir in H. destruct (build_paths dir nm) as [bp lp].
  run_syscalls; eauto.
Qed.

Lemma with_candidates_in_dir_errors (dir : string) (cands : list string) (w w' : World)
    (e : SocketError) (H : with_candidates_in_dir dir cands w = Some (w', Err e)) :
  e = NoAvailableSocket \/ exists e', e = LockOpen e' \/ e = Bind e'.
Proof.
  revert w H. induction cands as [|nm t IH]; intros w H; simpl in H.
  - unfold ret in H. simplify_eq. by left.
  - destruct (with_name_in_dir_total dir nm w) as (w1 & r & E).
    rewrite (bindM_Some _ _ _ _ _ E) in H.
    destruct r as [s|e1]; [unfold ret in H; discriminate|].
    destruct (with_name_in_dir_errors _ _ _ _ _ E) as (e' & [->|[->| ->]]).
    + unfold ret in H. simplify_eq. right. eauto.
    + exact (IH w1 H).
    + unfold ret in H. simplify_eq. right. eauto.
Qed.

(** Running the candidates [l1 ++ l2] is running [l1], then, only when
    [l1] is exhausted without success ([NoAvailableSocket]), running [l2]
    from the world [l1] left. *)
Lemma with_candidates_in_dir_app (dir : string) (l1 l2 : list string) (w : World) :
  with_candidates_in_dir dir (l1 ++ l2) w =
  (let* r := with_candidates_in_dir dir l1 in
   match r with
   | Err NoAvailableSocket => with_candidates_in_dir dir l2
   | _ => ret r
   end) w.
Proof.
  revert w. induction l1 as [|nm t IH]; intros w; [reflexivity|].
  simpl. destruct (with_name_in_dir_total dir nm w) as (w1 & r & E).
  unfold bindM at 1 2. rewrite E. unfold bindM at 1. rewrite E.
  destruct r as [s|e]; [reflexivity|].
  destruct (with_name_in_dir_errors _ _ _ _ _ E) as (e' & [->|[->| ->]]);
    [reflexivity| |reflexivity].
  rewrite IH. reflexivity.
Qed.

(** A failed selection over any candidate list leaks nothing: every
    descriptor opened for a refused candidate is closed, and the lock table
    is as it was. *)
Lemma with_candidates_in_dir_error_frame (dir : string) (cands : list string)
    (w w' : World) (e : SocketError) (Hk : kernel_ok w)
    (H : with_candidates_in_dir dir cands w = Some (w', Err e)) :
  fds w' = fds w /\ locks w' = locks w.
Proof.
  revert w Hk H. induction cands as [|nm t IH]; intros w Hk H; simpl in H.
  - unfold ret in H. by simplify_eq.
  - destruct (with_name_in_dir_total dir nm w) as (w1 & r & E).
    rewrite (bindM_Some _ _ _ _ _ E) in H.
    destruct r as [s|e1]; [unfold ret in H; discriminate|].
    destruct (with_name_in_dir_error_frame _ _ _ _ _ (proj1 Hk) E) as (Hf & Hl & _).
    destruct e1; unfold ret in H; try (simplify_eq; by split).
    destruct (IH w1 (with_name_in_dir_kernel_ok _ _ _ _ _ Hk E) H) as [Hf' Hl'].
    split; congruence.
Qed.

Lemma wf_fds_above (w : World) n : wf w -> next_fd w <= n -> fds w !! n = None.
Proof.
  intros (Hf & _ & _) Hn. destruct (fds w !! n) eqn:E; [|reflexivity].
  apply Hf in E. lia.
Qed.

Lemma wf_locks_above (w : World) n : wf w -> next_ino w <= n -> locks w !! n = None.
Proof.
  intros (_ & Hl & _) Hn. destruct (locks w !! n) eqn:E; [|reflexivity].
  apply Hl in E. lia.
Qed.

Lemma with_name_in_dir_success (dir nm : string) (w w' : World) (s : WaylandSocket)
    (Hk : kernel_ok w) (H : with_name_in_dir dir nm w = Some (w', Ok s)) :
  holds_lock s w' /\
  exists i j m,
    fds w' = <[listener s := i]> (<[_lock s := j]> (fds w)) /\
    fs w' = <[bind_path s := Sock i]> (delete (bind_path s) (<[lock_path s := File j m]> (fs w))) /\
    locks w' = <[j := _lock s]> (locks w) /\
    fds w !! listener s = None /\ fds w !! _lock s = None /\ listener s <> _lock s /\
    locks w !! j = None /\ locks w !! i = None /\ next_ino w <= i /\ i <> j.
Proof.
  destruct Hk as [Hwf Hc].
  pose proof (wf_fds_fresh w Hwf) as Hfd.
  pose proof (wf_locks_fresh_ino w Hwf) as Hino.
  pose proof (build_paths_distinct dir nm) as Hd.
  unfold with_name_in_dir in H. destruct (build_paths dir nm) as [bp lp] eqn:Hb.
  simpl in Hd. run_syscalls.
  all: try (exfalso; solve [eapply wf_locks_fresh_fd; eauto]).
  all: unfold holds_lock; cbn [listener name bind_path lock_path _lock].
  all: split; [do 2 eexists; wsimp;
               repeat first [rewrite lookup_insert_eq |
                             rewrite lookup_insert_ne by (congruence || lia) |
                             rewrite lookup_delete_ne by congruence];
               (split; [eassumption || reflexivity|]); split; reflexivity|].
  all: first [match goal with
              | H : fs ?w0 !! ?l = Some (File ?j ?m) |- _ =>
                  pose proof (wf_fs_ino w0 _ _ Hwf H) as Hj; cbn beta iota in Hj;
                  eexists _, j, m; rewrite (insert_id (fs w0) l (File j m)) by exact H
              end
             | eexists _, _, _].
  all: wsimp; rewrite ?insert_delete_eq.
  all: split; [reflexivity|]; split; [reflexivity|]; split; [reflexivity|].
  all: split; [apply wf_fds_above; [exact Hwf|lia]|].
  all: split; [exact Hfd|]; split; [lia|].
  all: split; [assumption|]; split; [apply wf_locks_above; [exact Hwf|lia]|]; split; lia.
Qed.

Lemma bindM_inv {A B} (m : M A) (k : A -> M B) w w' b :
  bindM m k w = Some (w', b) -> exists w1 a, m w = Some (w1, a) /\ k a w1 = Some (w', b).
Proof. unfold bindM. destruct (m w) as [[w1 a]|]; [eauto|discriminate]. Qed.

Lemma unlink_effect p w w1 r : unlink p w = Some (w1, r) ->
  fds w1 = fds w /\ locks w1 = locks w /\ unlink_ok w1 = unlink_ok w /\
  fs w1 = (if unlink_ok w p then delete p (fs w) else fs w).
Proof.
  unfold unlink. destruct (unlink_ok w p) eqn:Hu; simpl; [|intros; by simplify_eq].
  destruct (fs w !! p) eqn:Hp; intros; simplify_eq; wsimp; [done|].
  by rewrite delete_id.
Qed.

Lemma close_effect fd w w1 u : close fd w = Some (w1, u) ->
  fs w1 = fs w /\ fds w1 = delete fd (fds w) /\ unlink_ok w1 = unlink_ok w /\
  locks w1 = match fds w !! fd with
             | Some i => if decide (locks w !! i = Some fd) then delete i (locks w)
                         else locks w
             | None => locks w
             end.
Proof.
  unfold close. destruct (fds w !! fd) eqn:Hf; intros; simplify_eq; wsimp; [done|].
  by rewrite delete_id.
Qed.

Lemma with_name_in_dir_paths (dir nm : string) (w w' : World) (s : WaylandSocket)
    (H : with_name_in_dir dir nm w = Some (w', Ok s)) :
  bind_path s = (build_paths dir nm).1 /\ lock_path s = (build_paths dir nm).2 /\
  name s = nm /\ unlink_ok w' = unlink_ok w.
Proof.
  unfold with_name_in_dir in H. destruct (build_paths dir nm) as [bp lp].
  run_syscalls; done.
Qed.

(** Constructing a socket and dropping it restores the descriptor table
    and the lock table; when removals are permitted, the files are as
    before except that [bind_path] and [lock_path] no longer exist. *)
Theorem with_name_in_dir_drop_roundtrip (dir nm : string) (w w1 w2 : World)
    (s : WaylandSocket) (Hk : kernel_ok w)
    (H1 : with_name_in_dir dir nm w = Some (w1, Ok s)) (H2 : drop s w1 = Some (w2, tt)) :
  fds w2 = fds w /\ locks w2 = locks w /\
  (unlink_ok w (bind_path s) = true -> unlink_ok w (lock_path s) = true ->
   fs w2 = delete (bind_path s) (delete (lock_path s) (fs w))).
Proof.
  destruct (with_name_in_dir_paths _ _ _ _ _ H1) as (Hbp & Hlp & _ & Hu).
  pose proof (build_paths_distinct dir nm) as Hd. rewrite <- Hbp, <- Hlp in Hd.
  destruct (with_name_in_dir_success _ _ _ _ _ Hk H1)
    as (_ & i & j & m & Efd & Efs & El & Hl0 & Hk0 & Hne & Hj & Hi & _ & Hij).
  unfold drop in H2.
  apply bindM_inv in H2 as (wa & ra & Ea & H2). apply unlink_effect in Ea as (Fa & La & Ua & Sa).
  apply bindM_inv in H2 as (wb & rb & Eb & H2). apply unlink_effect in Eb as (Fb & Lb & Ub & Sb).
  apply bindM_inv in H2 as (wc & rc & Ec & H2). apply close_effect in Ec as (Sc & Fc & Uc & Lc).
  apply close_effect in H2 as (Sd & Fd & Ud & Ld).
  assert (Hfdb : fds wb = <[listener s := i]> (<[_lock s := j]> (fds w))) by congruence.
  assert (Hlb : locks wb = <[j := _lock s]> (locks w)) by congruence.
  rewrite Hfdb in Lc. rewrite lookup_insert_eq in Lc.
  rewrite Hlb, lookup_insert_ne in Lc by congruence. rewrite Hi in Lc.
  rewrite decide_False in Lc by done.
  rewrite Fc, Hfdb in Ld. rewrite lookup_delete_ne in Ld by congruence.
  rewrite lookup_insert_ne, lookup_insert_eq in Ld by congruence.
  rewrite Lc, lookup_insert_eq, decide_True in Ld by done.
  split; [|split].
  - rewrite Fd, Fc, Hfdb. rewrite delete_insert_id.
    + apply delete_insert_id. exact Hk0.
    + by rewrite lookup_insert_ne by congruence.
  - rewrite Ld. by apply delete_insert_id.
  - intros Hub Hul. rewrite Sd, Sc, Sb, Sa, Ua, Hu, Hub, Hul, Efs.
    apply map_eq. intros k.
    destruct (decide (k = lock_path s)) as [->|Hk1];
      [rewrite !lookup_delete_eq; rewrite lookup_delete_ne by congruence;
       by rewrite lookup_delete_eq|].
    destruct (decide (k = bind_path s)) as [->|Hk2];
      [rewrite lookup_delete_ne by congruence; rewrite !lookup_delete_eq; done|].
    rewrite !lookup_delete_ne by congruence.
    rewrite lookup_insert_ne by congruence. rewrite lookup_delete_ne by congruence.
    rewrite lookup_insert_ne by congruence. done.
Qed.

Lemma close_locks_sub fd w w1 u i h : close fd w = Some (w1, u) ->
  locks w1 !! i = Some h -> locks w !! i = Some h.
Proof.
  intros E Hl. apply close_effect in E as (_ & _ & _ & L). rewrite L in Hl.
  destruct (fds w !! fd); [|exact Hl].
  case_decide; [apply lookup_delete_Some in Hl as [_ Hl]|]; exact Hl.
Qed.

(** Dropping a socket closes its listener and its lock descriptor,
    releases every lock they held and takes no lock. *)
Theorem drop_releases (s : WaylandSocket) (w w' : World) (Hk : kernel_ok w)
    (H : drop s w = Some (w', tt)) :
  fds w' !! listener s = None /\ fds w' !! _lock s = None /\
  (forall i h, locks w' !! i = Some h ->
     locks w !! i = Some h /\ h <> listener s /\ h <> _lock s) /\
  kernel_ok w'.
Proof.
  pose proof (drop_kernel_ok s w w' tt Hk H) as Hk'.
  unfold drop in H.
  apply bindM_inv in H as (wa & ra & Ea & H). apply unlink_effect in Ea as (Fa & La & _ & _).
  apply bindM_inv in H as (wb & rb & Eb & H). apply unlink_effect in Eb as (Fb & Lb & _ & _).
  apply bindM_inv in H as (wc & rc & Ec & H).
  assert (Sc : forall i h, locks wc !! i = Some h -> locks wb !! i = Some h)
    by (intros; eapply close_locks_sub; eauto).
  assert (Sd : forall i h, locks w' !! i = Some h -> locks wc !! i = Some h)
    by (intros; eapply close_locks_sub; eauto).
  apply close_effect in Ec as (_ & Fc & _ & _).
  apply close_effect in H as (_ & Fd & _ & _).
  assert (Hfl : fds w' !! listener s = None).
  { rewrite Fd, Fc. destruct (decide (_lock s = listener s)) as [->|Hne];
      [apply lookup_delete_eq|]. rewrite lookup_delete_ne by congruence.
    apply lookup_delete_eq. }
  assert (Hfk : fds w' !! _lock s = None) by (rewrite Fd; apply lookup_delete_eq).
  split; [exact Hfl|]. split; [exact Hfk|]. split; [|exact Hk'].
  intros i h Hih. split.
  - rewrite <- La, <- Lb. exact (Sc _ _ (Sd _ _ Hih)).
  - destruct Hk' as [_ Hc]. split; intros ->; apply Hc in Hih; congruence.
Qed.

Lemma with_name_in_dir_replaces (dir nm : string) (w : World) (Hwf : wf w)
    (Hfree : lock_free w (build_paths dir nm).2)
    (Hopen : open_ok w (build_paths dir nm).2 = true)
    (Hexh : lock_records_exhausted w = false)
    (Hunl : unlink_ok w (build_paths dir nm).1 = true)
    (Hbind : bind_ok w (build_paths dir nm).1 = true) :
  exists w' s i', with_name_in_dir dir nm w = Some (w', Ok s) /\
    bind_path s = (build_paths dir nm).1 /\ fs w' !! bind_path s = Some (Sock i').
Proof.
  pose proof (build_paths_distinct dir nm) as Hd.
  pose proof (wf_locks_fresh_ino w Hwf) as Hino.
  unfold with_name_in_dir. destruct (build_paths dir nm) as [bp lp] eqn:Hb.
  simpl in *. destruct Hfree as [Hn | (j & m & Hj & Hl)].
  all: run_syscalls.
  all: try (rewrite ?Hopen, ?Hunl, ?Hbind, ?Hexh in *; simpl in *; congruence).
  all: eexists _, _, _; split; [reflexivity|]; wsimp; cbn [bind_path].
  all: split; [reflexivity|]; by rewrite lookup_insert_eq.
Qed.

(** Names are not checked against the ".lock" suffix: the bind path of
    [nm ++ ".lock"] is the lock path of [nm].  Selecting [nm ++ ".lock"]
    while another socket owns [nm] succeeds, removes that owner's lock file
    and puts a socket file in its place, so the owner no longer holds its
    lock file. *)
Theorem lock_suffix_name_removes_lock_file (dir nm : string) (s : WaylandSocket) (w : World)
    (Hwf : wf w) (Hheld : holds_lock s w) (Hlp : lock_path s = (build_paths dir nm).2)
    (Hfree : lock_free w (build_paths dir (nm +:+ ".lock")).2)
    (Hopen : open_ok w (build_paths dir (nm +:+ ".lock")).2 = true)
    (Hexh : lock_records_exhausted w = false)
    (Hunl : unlink_ok w (lock_path s) = true) (Hbind : bind_ok w (lock_path s) = true) :
  exists w' s' i, with_name_in_dir dir (nm +:+ ".lock") w = Some (w', Ok s') /\
    bind_path s' = lock_path s /\ fs w' !! lock_path s = Some (Sock i) /\
    ~ holds_lock s w'.
Proof.
  assert (Hbp : (build_paths dir (nm +:+ ".lock")).1 = lock_path s) by (rewrite Hlp; reflexivity).
  rewrite <- Hbp in Hunl, Hbind.
  destruct (with_name_in_dir_replaces dir (nm +:+ ".lock") w Hwf Hfree Hopen Hexh Hunl Hbind)
    as (w' & s' & i & E & Hb & Hs).
  rewrite Hb, Hbp in Hs.
  exists w', s', i. split; [exact E|]. split; [congruence|]. split; [exact Hs|].
  intros (j & m & Hf & _). congruence.
Qed.

(** The lock path is the bind path followed by ".lock"; the two differ,
    and the bind path of [nm ++ ".lock"] is the lock path of [nm]. *)
Theorem build_paths_lock_suffix (dir nm : string) :
  (build_paths dir nm).2 = (build_paths dir nm).1 +:+ ".lock" /\
  (build_paths dir nm).1 <> (build_paths dir nm).2 /\
  (build_paths dir (nm +:+ ".lock")).1 = (build_paths dir nm).2.
Proof.
  split; [apply build_paths_lock|]. split; [apply build_paths_distinct|]. reflexivity.
Qed.

(** [with_name_in_dir] fails only with [LockOpen], [LockAcquire] or
    [Bind]; [with_candidates_in_dir] never reports [LockAcquire]: it fails
    only with [NoAvailableSocket], [LockOpen] or [Bind]. *)
Theorem selection_error_kinds (dir nm : string) (cands : list string) (w : World) :
  (forall w' e, with_name_in_dir dir nm w = Some (w', Err e) ->
     exists e', e = LockOpen e' \/ e = LockAcquire e' \/ e = Bind e') /\
  (forall w' e, with_candidates_in_dir dir cands w = Some (w', Err e) ->
     e = NoAvailableSocket \/ exists e', e = LockOpen e' \/ e = Bind e').
Proof.
  split; intros w' e H; [exact (with_name_in_dir_errors _ _ _ _ _ H)|].
  exact (with_candidates_in_dir_errors _ _ _ _ _ H).
Qed.

(** A failed [with_name_in_dir] leaves the descriptor table and the lock
    table as they were; when it fails at the lock ([LockOpen] or
    [LockAcquire]), no path other than the lock file is touched. *)
Theorem with_name_in_dir_failure_frame (dir nm : string) (w w' : World) (e : SocketError)
    (Hwf : wf w) (H : with_name_in_dir dir nm w = Some (w', Err e)) :
  fds w' = fds w /\ locks w' = locks w /\
  ((exists e', e = LockOpen e' \/ e = LockAcquire e') ->
   forall p, p <> (build_paths dir nm).2 -> fs w' !! p = fs w !! p).
Proof. exact (with_name_in_dir_error_frame dir nm w w' e Hwf H). Qed.

(** A successful [with_name_in_dir] holds the lock of its lock file, and
    its effect on the kernel state is exactly: two fresh descriptors (the
    lock file's and the listener's), one new lock on the lock file's inode,
    the lock file in place (created if absent), and a fresh socket inode at
    [bind_path] replacing whatever was there: an inode that no file, no
    descriptor and no lock of the initial state refers to. *)
Theorem with_name_in_dir_success_resources (dir nm : string) (w w' : World)
    (s : WaylandSocket) (Hk : kernel_ok w) (H : with_name_in_dir dir nm w = Some (w', Ok s)) :
  holds_lock s w' /\
  exists i j m,
    fds w' = <[listener s := i]> (<[_lock s := j]> (fds w)) /\
    fs w' = <[bind_path s := Sock i]> (delete (bind_path s) (<[lock_path s := File j m]> (fs w))) /\
    locks w' = <[j := _lock s]> (locks w) /\
    fds w !! listener s = None /\ fds w !! _lock s = None /\ listener s <> _lock s /\
    locks w !! j = None /\ i <> j /\ locks w !! i = None /\
    (forall p n, fs w !! p = Some n -> match n with File k _ | Sock k => k <> i end) /\
    (forall h k, fds w !! h = Some k -> k <> i).
Proof.
  destruct (with_name_in_dir_success dir nm w w' s Hk H)
    as (Hh & i & j & m & Efd & Efs & El & Hl0 & Hk0 & Hne & Hj & Hi & Hge & Hij).
  split; [exact Hh|]. exists i, j, m.
  do 9 (split; [assumption|]).
  destruct Hk as [Hwf _]. split.
  - intros p n Hp. pose proof (wf_fs_ino w p n Hwf Hp) as Hn. destruct n; lia.
  - intros h k Hh'. destruct Hwf as (Hf & _ & _). apply Hf in Hh'. lia.
Qed.

Lemma kernel_ok_world0 : kernel_ok world0.
Proof. split; [exact wf_world0|]. intros i h H. vm_compute in H. discriminate. Qed.

Lemma kernel_ok_world_alive : kernel_ok world_alive.
Proof.
  split; [exact wf_world_alive|]. intros i h H. unfold world_alive in H. wsimp.
  apply lookup_singleton_Some in H as [<- <-]. vm_compute. reflexivity.
Qed.

Lemma with_name_in_dir_failure_frame_witness :
  let w' := fst (default (world0, Err NoAvailableSocket)
                   (with_name_in_dir "/run/user/1000" "wayland-1" world_alive)) in
  wf world_alive /\
  with_name_in_dir "/run/user/1000" "wayland-1" world_alive =
    Some (w', Err (LockAcquire EWOULDBLOCK)) /\
  fds w' = fds world_alive /\ locks w' = locks world_alive.
Proof.
  intros w'.
  assert (H : with_name_in_dir "/run/user/1000" "wayland-1" world_alive =
              Some (w', Err (LockAcquire EWOULDBLOCK))) by (vm_compute; reflexivity).
  split; [exact wf_world_alive|]. split; [exact H|].
  destruct (with_name_in_dir_failure_frame _ _ _ _ _ wf_world_alive H) as (A & B & _).
  split; [exact A|exact B].
Defined.

Lemma with_candidates_in_dir_error_frame_witness :
  let w' := fst (default (world0, Err NoAvailableSocket)
                   (with_candidates_in_dir "/run/user/1000" ["wayland-1"] world_alive)) in
  kernel_ok world_alive /\
  with_candidates_in_dir "/run/user/1000" ["wayland-1"] world_alive =
    Some (w', Err NoAvailableSocket) /\
  fds w' = fds world_alive /\ locks w' = locks world_alive.
Proof.
  intros w'.
  assert (H : with_candidates_in_dir "/run/user/1000" ["wayland-1"] world_alive =
              Some (w', Err NoAvailableSocket)) by (vm_compute; reflexivity).
  split; [exact kernel_ok_world_alive|]. split; [exact H|].
  exact (with_candidates_in_dir_error_frame _ _ _ _ _ kernel_ok_world_alive H).
Defined.

Lemma with_name_in_dir_success_resources_witness :
  let r := default (world0, Err NoAvailableSocket)
             (with_name_in_dir "/run/user/1000" "wayland-1" world0) in
  let s := match snd r with Ok s => s | Err _ => sock_alive end in
  kernel_ok world0 /\
  with_name_in_dir "/run/user/1000" "wayland-1" world0 = Some (fst r, Ok s) /\
  holds_lock s (fst r).
Proof.
  intros r s.
  assert (H : with_name_in_dir "/run/user/1000" "wayland-1" world0 = Some (fst r, Ok s))
    by (vm_compute; reflexivity).
  split; [exact kernel_ok_world0|]. split; [exact H|].
  exact (proj1 (with_name_in_dir_success_resources _ _ _ _ _ kernel_ok_world0 H)).
Defined.

Lemma with_name_in_dir_drop_roundtrip_witness :
  let r := default (world0, Err NoAvailableSocket)
             (with_name_in_dir "/run/user/1000" "wayland-1" world0) in
  let s := match snd r with Ok s => s | Err _ => sock_alive end in
  let w2 := fst (default (world0, tt) (drop s (fst r))) in
  kernel_ok world0 /\
  with_name_in_dir "/run/user/1000" "wayland-1" world0 = Some (fst r, Ok s) /\
  drop s (fst r) = Some (w2, tt) /\
  fds w2 = fds world0 /\ locks w2 = locks world0 /\
  fs w2 = delete (bind_path s) (delete (lock_path s) (fs world0)).
Proof.
  intros r s w2.
  assert (H1 : with_name_in_dir "/run/user/1000" "wayland-1" world0 = Some (fst r, Ok s))
    by (vm_compute; reflexivity).
  assert (H2 : drop s (fst r) = Some (w2, tt)) by (vm_compute; reflexivity).
  destruct (with_name_in_dir_drop_roundtrip _ _ _ _ _ _ kernel_ok_world0 H1 H2) as (A & B & C).
  split; [exact kernel_ok_world0|]. split; [exact H1|]. split; [exact H2|].
  split; [exact A|]. split; [exact B|]. apply C; reflexivity.
Defined.

Lemma drop_releases_witness :
  let w' := fst (default (world0, tt) (drop sock_alive world_alive)) in
  kernel_ok world_alive /\ drop sock_alive world_alive = Some (w', tt) /\
  fds w' !! listener sock_alive = None /\ fds w' !! _lock sock_alive = None.
Proof.
  intros w'.
  assert (H : drop sock_alive world_alive = Some (w', tt)) by (vm_compute; reflexivity).
  split; [exact kernel_ok_world_alive|]. split; [exact H|].
  destruct (drop_releases _ _ _ kernel_ok_world_alive H) as (A & B & _).
  split; [exact A|exact B].
Defined.

Lemma lock_suffix_name_removes_lock_file_witness :
  exists w' s' i,
    with_name_in_dir "/run/user/1000" ("wayland-1" +:+ ".lock") world_alive = Some (w', Ok s') /\
    bind_path s' = lock_path sock_alive /\ fs w' !! lock_path sock_alive = Some (Sock i) /\
    ~ holds_lock sock_alive w'.
Proof.
  apply (lock_suffix_name_removes_lock_file "/run/user/1000" "wayland-1" sock_alive world_alive
           wf_world_alive holds_lock_alive).
  all: first [left; vm_compute; reflexivity | vm_compute; reflexivity].
Defined.
